(** * The density-plot cell of [AdvancedSampling.ipynb]

    The only code of the notebook is one cell:
<<
    xx = np.arange(-10., 10., 0.1)
    plt.plot(xx, scipy.stats.norm.pdf(xx));
    yy = np.sqrt(scipy.stats.norm.pdf(xx))
    yy = yy / (np.sum(yy)*0.1)
    plt.plot(xx, yy);
>>
    It is embedded below statement by statement.  Arrays are lists of real
    numbers and every arithmetic operation is the exact operation on [R]:
    the rounding of binary64 arithmetic is not part of the model, so a
    decimal literal such as [0.1] denotes the real number one tenth. *)

From Stdlib Require Import Reals Lra Lia List ZArith Psatz Sorted.
Import ListNotations.
Local Open Scope R_scope.

(** ** Arrays and the library calls of the cell *)

Definition ndarray : Type := list R.

Module np.

(** The ceiling of a real number, as [np.arange] takes it to count its
    elements. *)
Definition ceil (r : R) : Z := (- Int_part (- r))%Z.

(** [np.arange(start, stop, step)]: [ceil((stop - start) / step)] values
    [start + i * step] of the half-open interval [[start, stop)]. *)
Definition arange (start stop step : R) : ndarray :=
  let length := Z.to_nat (ceil ((stop - start) / step)) in
  map (fun i : nat => start + INR i * step) (seq 0 length).

(** [np.sqrt], element by element. *)
Definition sqrt (a : ndarray) : ndarray := map R_sqrt.sqrt a.

(** [np.sum] of a one-dimensional array. *)
Definition sum (a : ndarray) : R := fold_left Rplus a 0.

(** [a / d] for an array [a] and a scalar [d] (broadcast division). *)
Definition true_divide (a : ndarray) (d : R) : ndarray :=
  map (fun v => v / d) a.

End np.

Module norm.

(** [scipy.stats.norm]: [_norm_pdf_C = np.sqrt(2*np.pi)] and
    [_norm_pdf(x) = np.exp(-x**2/2.0) / _norm_pdf_C]; with the default
    [loc=0], [scale=1] the public [pdf] is [_norm_pdf] on every element. *)
Definition _norm_pdf_C : R := R_sqrt.sqrt (2 * PI).

Definition _norm_pdf (x : R) : R := exp (- x ^ 2 / 2) / _norm_pdf_C.

Definition pdf (a : ndarray) : ndarray := map _norm_pdf a.

End norm.

(** ** The notebook kernel and the cell

    The kernel state the cell can touch: the two names it binds and the
    lines of the current axes.  A name that is not bound yet is [None];
    reading it is Python's [NameError], the [None] result of a run. *)

Record kernel : Type := mkKernel {
  xx : option ndarray;
  yy : option ndarray;
  lines : list (ndarray * ndarray)
}.

Definition Run (A : Type) : Type := kernel -> option (A * kernel).

Definition ret {A : Type} (a : A) : Run A := fun k => Some (a, k).

Definition bind {A B : Type} (m : Run A) (f : A -> Run B) : Run B :=
  fun k => match m k with
           | Some (a, k') => f a k'
           | None => None
           end.

Notation "x <- m ;; f" := (bind m (fun x => f))
  (at level 61, m at next level, right associativity).
Notation "m ;;; f" := (bind m (fun _ => f))
  (at level 61, right associativity).

Definition set_xx (v : ndarray) : Run unit :=
  fun k => Some (tt, mkKernel (Some v) (yy k) (lines k)).

Definition set_yy (v : ndarray) : Run unit :=
  fun k => Some (tt, mkKernel (xx k) (Some v) (lines k)).

Definition get_xx : Run ndarray :=
  fun k => match xx k with Some v => Some (v, k) | None => None end.

Definition get_yy : Run ndarray :=
  fun k => match yy k with Some v => Some (v, k) | None => None end.

(** [plt.plot(x, y)] adds one line to the axes; it raises when [x] and [y]
    do not have the same length. *)
Definition plt_plot (x y : ndarray) : Run unit :=
  fun k => if Nat.eqb (length x) (length y)
           then Some (tt, mkKernel (xx k) (yy k) (lines k ++ [(x, y)]))
           else None.

(** The cell, one line of the definition per statement of the source. *)
Definition cell : Run unit :=
  set_xx (np.arange (-10.0) 10.0 0.1) ;;;
  (x <- get_xx ;; plt_plot x (norm.pdf x)) ;;;
  (x <- get_xx ;; set_yy (np.sqrt (norm.pdf x))) ;;;
  (y <- get_yy ;; y' <- get_yy ;; set_yy (np.true_divide y (np.sum y' * 0.1))) ;;;
  (x <- get_xx ;; y <- get_yy ;; plt_plot x y).

(** The values the cell computes, named as the specification names them. *)

(** The grid, [xx]. *)
Definition grid : ndarray := np.arange (-10.0) 10.0 0.1.

(** Curve A, [scipy.stats.norm.pdf(xx)]. *)
Definition curveA : ndarray := norm.pdf grid.

(** Curve B before the normalisation, the first value of [yy]. *)
Definition curveB_raw : ndarray := np.sqrt (norm.pdf grid).

(** The divisor of the normalisation, [np.sum(yy)*0.1]. *)
Definition divisor : R := np.sum curveB_raw * 0.1.

(** Curve B, the final value of [yy]. *)
Definition curveB : ndarray := np.true_divide curveB_raw divisor.

(** The kernel a run of the cell leaves behind when started in [k]. *)
Definition after_cell (k : kernel) : kernel :=
  mkKernel (Some grid) (Some curveB)
           (lines k ++ [(grid, curveA); (grid, curveB)]).

(** ** Specification vocabulary *)

(** [m] is the largest value of the array [a]. *)
Definition is_max (a : ndarray) (m : R) : Prop :=
  In m a /\ Forall (fun v => v <= m) a.

(** ** Fixed-point enclosures of [exp (- t)]

    The numerical claims need rational bounds on the exponential at the
    grid points.  They are computed on integers scaled by [scale], with
    the rounding directed downwards for lower bounds and upwards for upper
    bounds, from [1 + y <= exp y] and [exp y = exp (y / 2 ^ m) ^ (2 ^ m)]. *)

Module Fixed.

Definition scale : Z := (10 ^ 18)%Z.

Definition halvings : nat := 30.

(** The real number a scaled integer stands for. *)
Definition to_R (a : Z) : R := IZR a / IZR scale.

(** Squaring, rounded down and rounded up. *)
Definition sqr_dn (a : Z) : Z := (a * a / scale)%Z.

Definition sqr_up (a : Z) : Z := (- (- (a * a) / scale))%Z.

(** A lower and an upper bound of [exp (- (n / d))]. *)
Definition exp_neg_lo (n d : Z) : Z :=
  let p := (d * 2 ^ Z.of_nat halvings)%Z in
  Nat.iter halvings sqr_dn (scale * (p - n) / p)%Z.

Definition exp_neg_hi (n d : Z) : Z :=
  let p := (d * 2 ^ Z.of_nat halvings)%Z in
  Nat.iter halvings sqr_up (- (- (scale * p) / (p + n)))%Z.

Definition zsum (f : nat -> Z) (l : list nat) : Z :=
  fold_right (fun i s => (f i + s)%Z) 0%Z l.

End Fixed.

(** The grid point of index [i] is [(i - 100) / 10]; [sq_off i] is the
    square of its numerator. *)
Definition sq_off (i : nat) : Z :=
  ((Z.of_nat i - 100) * (Z.of_nat i - 100))%Z.

(** ** The statements of the cell, one by one

    The five statements of the cell as separate runs, and the array
    expressions of the third and the fourth statement as functions of the
    arrays they read. *)

(** [xx = np.arange(-10., 10., 0.1)] *)
Definition stmt_grid : Run unit := set_xx (np.arange (-10.0) 10.0 0.1).

(** [plt.plot(xx, scipy.stats.norm.pdf(xx))] *)
Definition stmt_plot_pdf : Run unit :=
  x <- get_xx ;; plt_plot x (norm.pdf x).

(** [yy = np.sqrt(scipy.stats.norm.pdf(xx))] *)
Definition stmt_sqrt_pdf : Run unit :=
  x <- get_xx ;; set_yy (np.sqrt (norm.pdf x)).

(** [yy = yy / (np.sum(yy)*0.1)] *)
Definition stmt_normalise : Run unit :=
  y <- get_yy ;; y' <- get_yy ;; set_yy (np.true_divide y (np.sum y' * 0.1)).

(** [plt.plot(xx, yy)] *)
Definition stmt_plot_yy : Run unit :=
  x <- get_xx ;; y <- get_yy ;; plt_plot x y.

(** The cell after its first statement. *)
Definition cell_tail : Run unit :=
  stmt_plot_pdf ;;; stmt_sqrt_pdf ;;; stmt_normalise ;;; stmt_plot_yy.

(** The right-hand side of the fourth statement, [y / (np.sum(y)*0.1)]. *)
Definition normalise (y : ndarray) : ndarray :=
  np.true_divide y (np.sum y * 0.1).

(** What the third and the fourth statement make of a grid [a]. *)
Definition tempered (a : ndarray) : ndarray :=
  normalise (np.sqrt (norm.pdf a)).

(** The distance of the index [i] from the index 100 of the grid point 0. *)
Definition off (i : nat) : Z := Z.abs (Z.of_nat i - 100).

(** ** Real arithmetic used below *)

(** Closes a goal on a grid value once the index is a numeral. *)
Ltac grid_value := rewrite ?INR_IZR_INZ; simpl Z.of_nat; lra.

Lemma div_le_of_le_mul (a b c : R) : 0 < b -> a <= c * b -> a / b <= c.
Proof.
  intros Hb H. replace c with (c * b / b) by (field; lra).
  apply Rmult_le_compat_r; [left; now apply Rinv_0_lt_compat | exact H].
Qed.

Lemma le_div_of_mul_le (a b c : R) : 0 < b -> c * b <= a -> c <= a / b.
Proof.
  intros Hb H. replace c with (c * b / b) by (field; lra).
  apply Rmult_le_compat_r; [left; now apply Rinv_0_lt_compat | exact H].
Qed.

Lemma inv_bounds (c lo hi : R) : 0 < lo -> lo < c < hi -> / hi < / c < / lo.
Proof.
  intros Hlo [H1 H2]. split; apply Rinv_lt_contravar; nra.
Qed.

Lemma sqrt_gt_of_sq_lt (a y : R) : 0 <= a -> a ^ 2 < y -> a < R_sqrt.sqrt y.
Proof.
  intros Ha H. rewrite <- (sqrt_pow2 a Ha) at 1.
  apply sqrt_lt_1_alt. split; [nra | exact H].
Qed.

Lemma sqrt_lt_of_lt_sq (a y : R) : 0 <= a -> 0 <= y -> y < a ^ 2 -> R_sqrt.sqrt y < a.
Proof.
  intros Ha Hy H. rewrite <- (sqrt_pow2 a Ha) at 1.
  apply sqrt_lt_1_alt. split; assumption.
Qed.

Lemma sqrt_exp (a : R) : R_sqrt.sqrt (exp a) = exp (a / 2).
Proof.
  apply sqrt_lem_1.
  - left. apply exp_pos.
  - left. apply exp_pos.
  - rewrite <- exp_plus. f_equal. lra.
Qed.

Lemma exp_neg_le_1 (t : R) : 0 <= t -> exp (- t) <= 1.
Proof.
  intros Ht. rewrite <- exp_0. destruct Ht as [Ht|<-].
  - left. apply exp_increasing. lra.
  - rewrite Ropp_0. lra.
Qed.

Lemma exp_neg_upper (y : R) : 0 <= y -> exp (- y) <= / (1 + y).
Proof.
  intros Hy. rewrite exp_Ropp.
  apply Rinv_le_contravar; [lra | apply exp_ineq1_le].
Qed.

Lemma exp_pow_nat (y : R) (N : nat) : exp y ^ N = exp (INR N * y).
Proof.
  induction N as [|N IH].
  - simpl. rewrite Rmult_0_l, exp_0. reflexivity.
  - rewrite S_INR. cbn [pow]. rewrite IH, <- exp_plus. f_equal. lra.
Qed.

Lemma exp_halvings (t : R) (m : nat) : exp (- t) = exp (- (t / 2 ^ m)) ^ (2 ^ m).
Proof.
  rewrite exp_pow_nat, pow_INR. f_equal.
  replace (INR 2) with 2 by (simpl; lra).
  field. apply pow_nonzero. lra.
Qed.

Lemma pow_two_S (x : R) (m : nat) : x ^ (2 ^ S m) = (x ^ (2 ^ m)) ^ 2.
Proof.
  rewrite <- pow_mult. f_equal. simpl. lia.
Qed.

(** Six digits of [PI], from the series of [atan (/ 3)] and [atan (/ 7)]. *)
Lemma PI_bounds : 3.14159 < PI < 3.14160.
Proof.
  pose proof (PI_2_3_7_ineq 3) as [Hlo Hhi].
  unfold sum_f_R0, tg_alt, PI_2_3_7_tg, Ratan_seq in Hlo, Hhi.
  cbn [Nat.mul Nat.add] in Hlo, Hhi.
  rewrite !S_INR in Hlo, Hhi. cbn [INR pow] in Hlo, Hhi.
  split; lra.
Qed.

(** ** Sums of arrays *)

Lemma fold_left_Rplus_acc (l : list R) (a : R) :
  fold_left Rplus l a = a + fold_left Rplus l 0.
Proof.
  revert a. induction l as [|v l IH]; intros a; simpl.
  - lra.
  - rewrite (IH (a + v)), (IH (0 + v)). lra.
Qed.

Lemma sum_nil : np.sum [] = 0.
Proof. reflexivity. Qed.

Lemma sum_cons (v : R) (l : ndarray) : np.sum (v :: l) = v + np.sum l.
Proof.
  unfold np.sum. simpl. rewrite fold_left_Rplus_acc. lra.
Qed.

Lemma sum_true_divide (l : ndarray) (d : R) :
  np.sum (np.true_divide l d) = np.sum l / d.
Proof.
  induction l as [|v l IH].
  - cbn. unfold np.sum. simpl. lra.
  - change (np.true_divide (v :: l) d) with (v / d :: np.true_divide l d).
    rewrite !sum_cons, IH. lra.
Qed.

Lemma sum_map_div (f : nat -> R) (c : R) (l : list nat) :
  np.sum (map (fun i => f i / c) l) = np.sum (map f l) / c.
Proof.
  rewrite <- sum_true_divide. unfold np.true_divide. now rewrite map_map.
Qed.

Lemma sum_pos (l : ndarray) :
  l <> [] -> Forall (fun v => 0 < v) l -> 0 < np.sum l.
Proof.
  intros Hne Hall. induction Hall as [|v l Hv Hl IH]; [congruence|].
  rewrite sum_cons. destruct l as [|w l].
  - rewrite sum_nil. lra.
  - assert (0 < np.sum (w :: l)) by (apply IH; discriminate). lra.
Qed.

(** ** The grid *)

Lemma ceil_IZR (z : Z) : np.ceil (IZR z) = z.
Proof.
  unfold np.ceil. rewrite <- opp_IZR.
  rewrite <- (Int_part_spec (IZR (- z)) (- z)); [lia | lra].
Qed.

Lemma grid_length_ceil : np.ceil ((10.0 - -10.0) / 0.1) = 200%Z.
Proof.
  replace ((10.0 - -10.0) / 0.1) with (IZR 200) by lra.
  apply ceil_IZR.
Qed.

Lemma grid_eq : grid = map (fun i : nat => -10.0 + INR i * 0.1) (seq 0 200).
Proof.
  unfold grid, np.arange. rewrite grid_length_ceil. reflexivity.
Qed.

Lemma grid_length : length grid = 200%nat.
Proof. rewrite grid_eq, length_map, length_seq. reflexivity. Qed.

Lemma grid_nth_error (i : nat) :
  (i < 200)%nat -> nth_error grid i = Some (-10.0 + INR i * 0.1).
Proof.
  intros Hi. rewrite grid_eq, nth_error_map, nth_error_seq.
  destruct (Nat.ltb_spec i 200); [reflexivity | lia].
Qed.

Lemma grid_mid : nth_error grid 100 = Some 0.
Proof.
  rewrite grid_nth_error by lia. f_equal.
  grid_value.
Qed.




Lemma sq_off_range (i : nat) : (i < 200)%nat -> (0 <= sq_off i <= 10000)%Z.
Proof.
  intros Hi. unfold sq_off.
  assert (Hk : (-100 <= Z.of_nat i - 100 <= 100)%Z) by lia.
  revert Hk. generalize (Z.of_nat i - 100)%Z. intros k Hk. nia.
Qed.

Lemma grid_point_sq (i : nat) :
  (-10.0 + INR i * 0.1) ^ 2 = IZR (sq_off i) / 100.
Proof.
  unfold sq_off. rewrite mult_IZR, minus_IZR, <- INR_IZR_INZ.
  replace (-10.0) with (-10) by lra. replace 0.1 with (/ 10) by lra. field.
Qed.

(** ** The density *)

Lemma norm_pdf_C_pos : 0 < norm._norm_pdf_C.
Proof.
  unfold norm._norm_pdf_C. apply sqrt_lt_R0.
  pose proof PI_RGT_0. lra.
Qed.

Lemma norm_pdf_C_bounds : 2.50662 < norm._norm_pdf_C < 2.50664.
Proof.
  pose proof PI_bounds as [Hlo Hhi]. unfold norm._norm_pdf_C. split.
  - apply sqrt_gt_of_sq_lt; lra.
  - apply sqrt_lt_of_lt_sq; lra.
Qed.

Lemma norm_pdf_pos (x : R) : 0 < norm._norm_pdf x.
Proof.
  unfold norm._norm_pdf. apply Rdiv_lt_0_compat.
  - apply exp_pos.
  - apply norm_pdf_C_pos.
Qed.

Lemma norm_pdf_even (x : R) : norm._norm_pdf (- x) = norm._norm_pdf x.
Proof.
  unfold norm._norm_pdf. f_equal. f_equal. lra.
Qed.

Lemma norm_pdf_le_mode (x : R) : norm._norm_pdf x <= norm._norm_pdf 0.
Proof.
  unfold norm._norm_pdf.
  apply Rmult_le_compat_r.
  - left. apply Rinv_0_lt_compat, norm_pdf_C_pos.
  - replace (- 0 ^ 2 / 2) with 0 by lra. rewrite exp_0.
    replace (- x ^ 2 / 2) with (- (x ^ 2 / 2)) by lra.
    apply exp_neg_le_1. nra.
Qed.

Lemma norm_pdf_0 : norm._norm_pdf 0 = / norm._norm_pdf_C.
Proof.
  unfold norm._norm_pdf. replace (- 0 ^ 2 / 2) with 0 by lra.
  rewrite exp_0. lra.
Qed.

Lemma norm_pdf_0_bounds : 0.39894 < norm._norm_pdf 0 < 0.39895.
Proof.
  rewrite norm_pdf_0.
  pose proof (inv_bounds _ 2.50662 2.50664 ltac:(lra) norm_pdf_C_bounds) as [H1 H2].
  split; lra.
Qed.

Lemma sqrt_norm_pdf (x : R) :
  R_sqrt.sqrt (norm._norm_pdf x)
  = exp (- x ^ 2 / 4) / R_sqrt.sqrt norm._norm_pdf_C.
Proof.
  unfold norm._norm_pdf.
  rewrite sqrt_div_alt by apply norm_pdf_C_pos.
  rewrite sqrt_exp. do 2 f_equal. lra.
Qed.

Lemma norm_pdf_grid (i : nat) :
  norm._norm_pdf (-10.0 + INR i * 0.1)
  = exp (- (IZR (sq_off i) / IZR 200)) / norm._norm_pdf_C.
Proof.
  unfold norm._norm_pdf. rewrite grid_point_sq. do 2 f_equal. lra.
Qed.

Lemma sqrt_norm_pdf_grid (i : nat) :
  R_sqrt.sqrt (norm._norm_pdf (-10.0 + INR i * 0.1))
  = exp (- (IZR (sq_off i) / IZR 400)) / R_sqrt.sqrt norm._norm_pdf_C.
Proof.
  rewrite sqrt_norm_pdf, grid_point_sq. do 2 f_equal. lra.
Qed.

(** ** The two curves and the run of the cell *)

Lemma curveA_eq :
  curveA = map (fun i : nat => norm._norm_pdf (-10.0 + INR i * 0.1)) (seq 0 200).
Proof.
  unfold curveA, norm.pdf. rewrite grid_eq, map_map. reflexivity.
Qed.

Lemma curveA_nth_error (i : nat) (x : R) :
  nth_error grid i = Some x -> nth_error curveA i = Some (norm._norm_pdf x).
Proof.
  intros H. unfold curveA, norm.pdf. now apply map_nth_error.
Qed.

Lemma curveA_le_mode : Forall (fun v => v <= norm._norm_pdf 0) curveA.
Proof.
  unfold curveA, norm.pdf. apply Forall_map, Forall_forall.
  intros x _. apply norm_pdf_le_mode.
Qed.

Lemma curveA_max : is_max curveA (norm._norm_pdf 0).
Proof.
  split; [|apply curveA_le_mode].
  apply (nth_error_In curveA 100), curveA_nth_error, grid_mid.
Qed.

Lemma curveB_raw_eq : curveB_raw = map R_sqrt.sqrt curveA.
Proof. reflexivity. Qed.

Lemma curveB_raw_pos : Forall (fun v => 0 < v) curveB_raw.
Proof.
  rewrite curveB_raw_eq. unfold curveA, norm.pdf. rewrite map_map.
  apply Forall_map, Forall_forall. intros x _.
  apply sqrt_lt_R0, norm_pdf_pos.
Qed.

Lemma curveB_raw_length : length curveB_raw = 200%nat.
Proof.
  unfold curveB_raw, np.sqrt, norm.pdf. rewrite !length_map. apply grid_length.
Qed.

Lemma divisor_pos : 0 < divisor.
Proof.
  unfold divisor. apply Rmult_lt_0_compat; [|lra].
  apply sum_pos.
  - intros H. pose proof curveB_raw_length as L. rewrite H in L. discriminate.
  - apply curveB_raw_pos.
Qed.

Lemma curveB_of_curveA :
  curveB = map (fun a => R_sqrt.sqrt a / divisor) curveA.
Proof.
  unfold curveB, np.true_divide. rewrite curveB_raw_eq, map_map. reflexivity.
Qed.

Lemma curveB_max : is_max curveB (R_sqrt.sqrt (norm._norm_pdf 0) / divisor).
Proof.
  rewrite curveB_of_curveA. split.
  - apply (nth_error_In _ 100).
    apply (map_nth_error (fun a => R_sqrt.sqrt a / divisor)).
    apply curveA_nth_error, grid_mid.
  - apply Forall_map. eapply Forall_impl; [|apply curveA_le_mode].
    intros a Ha. cbv beta in *.
    apply Rmult_le_compat_r.
    + left. apply Rinv_0_lt_compat, divisor_pos.
    + now apply sqrt_le_1_alt.
Qed.

(** From every kernel the cell runs to completion and leaves [after_cell]. *)
Lemma cell_run (k : kernel) : cell k = Some (tt, after_cell k).
Proof.
  unfold cell, bind, set_xx, get_xx, get_yy, set_yy, plt_plot. cbn [xx yy lines].
  fold grid. fold curveA. fold curveB_raw. fold divisor. fold curveB.
  assert (LA : length curveA = length grid) by (unfold curveA, norm.pdf; apply length_map).
  assert (LB : length curveB = length grid).
  { unfold curveB, np.true_divide, curveB_raw, np.sqrt, norm.pdf.
    now rewrite !length_map. }
  rewrite LA, Nat.eqb_refl. cbn [xx yy lines].
  change (np.true_divide (np.sqrt (norm.pdf grid))
            (np.sum (np.sqrt (norm.pdf grid)) * 0.1)) with curveB.
  rewrite LB, Nat.eqb_refl. unfold after_cell.
  now rewrite <- app_assoc.
Qed.

(** ** Soundness of the fixed-point enclosures *)

Import Fixed.

Lemma scale_pos : 0 < IZR scale.
Proof. apply IZR_lt. reflexivity. Qed.

Lemma to_R_nonneg (a : Z) : (0 <= a)%Z -> 0 <= to_R a.
Proof.
  intros Ha. unfold to_R. apply Rmult_le_pos.
  - now apply IZR_le.
  - left. apply Rinv_0_lt_compat, scale_pos.
Qed.

Lemma to_R_plus (a b : Z) : to_R (a + b) = to_R a + to_R b.
Proof. unfold to_R. rewrite plus_IZR. pose proof scale_pos. field. lra. Qed.

Lemma to_R_literal (z : Z) : to_R z = IZR z / 1000000000000000000.
Proof. reflexivity. Qed.

Lemma floor_div_le (a b : Z) : (0 < b)%Z -> IZR (a / b) <= IZR a / IZR b.
Proof.
  intros Hb. assert (0 < IZR b) by now apply IZR_lt.
  apply le_div_of_mul_le; [assumption|].
  rewrite <- mult_IZR. apply IZR_le.
  rewrite Z.mul_comm. now apply Z.mul_div_le.
Qed.

Lemma ceil_div_ge (a b : Z) : (0 < b)%Z -> IZR a / IZR b <= IZR (- (- a / b)).
Proof.
  intros Hb. pose proof (floor_div_le (- a) b Hb) as H.
  rewrite !opp_IZR in *. unfold Rdiv in *. lra.
Qed.

Lemma sqr_dn_sound (a : Z) (x : R) :
  (0 <= a)%Z -> to_R a <= x ->
  (0 <= sqr_dn a)%Z /\ to_R (sqr_dn a) <= x ^ 2.
Proof.
  intros Ha Hx. pose proof (to_R_nonneg a Ha) as H0. pose proof scale_pos as Hs.
  split.
  - unfold sqr_dn. apply Z.div_pos; [nia | reflexivity].
  - apply Rle_trans with (to_R a ^ 2); [|nra].
    unfold to_R, sqr_dn.
    pose proof (floor_div_le (a * a) scale eq_refl) as H.
    rewrite mult_IZR in H.
    apply Rle_trans with (IZR a * IZR a / IZR scale / IZR scale).
    + apply Rmult_le_compat_r; [left; now apply Rinv_0_lt_compat | exact H].
    + right. field. lra.
Qed.

Lemma sqr_up_sound (a : Z) (x : R) :
  0 <= x <= to_R a -> x ^ 2 <= to_R (sqr_up a).
Proof.
  intros [H0 Hx]. pose proof scale_pos as Hs.
  apply Rle_trans with (to_R a ^ 2); [nra|].
  unfold to_R, sqr_up.
  pose proof (ceil_div_ge (a * a) scale eq_refl) as H.
  rewrite mult_IZR in H.
  apply Rle_trans with (IZR a * IZR a / IZR scale / IZR scale).
  - right. field. lra.
  - apply Rmult_le_compat_r; [left; now apply Rinv_0_lt_compat | exact H].
Qed.

Lemma iter_sqr_dn_sound (m : nat) (a : Z) (x : R) :
  (0 <= a)%Z -> to_R a <= x ->
  (0 <= Nat.iter m sqr_dn a)%Z /\ to_R (Nat.iter m sqr_dn a) <= x ^ (2 ^ m).
Proof.
  intros Ha Hx. induction m as [|m [IH0 IH]].
  - simpl. split; [assumption | lra].
  - rewrite pow_two_S. cbn [Nat.iter nat_rect]. now apply sqr_dn_sound.
Qed.

Lemma iter_sqr_up_sound (m : nat) (a : Z) (x : R) :
  0 <= x <= to_R a -> x ^ (2 ^ m) <= to_R (Nat.iter m sqr_up a).
Proof.
  intros Hx. induction m as [|m IH].
  - simpl. lra.
  - rewrite pow_two_S. cbn [Nat.iter nat_rect]. apply sqr_up_sound.
    split; [apply pow_le; lra | exact IH].
Qed.

(** The two bounds enclose [exp (- (n / d))]. *)
Theorem exp_neg_enclosure (n d : Z) :
  (0 <= n)%Z -> (0 < d)%Z -> (n <= d * 2 ^ Z.of_nat halvings)%Z ->
  to_R (exp_neg_lo n d) <= exp (- (IZR n / IZR d)) <= to_R (exp_neg_hi n d).
Proof.
  intros Hn Hd Hnp.
  set (p := (d * 2 ^ Z.of_nat halvings)%Z) in *.
  assert (Hp : (0 < p)%Z) by (subst p; apply Z.mul_pos_pos; [assumption | reflexivity]).
  assert (HpR : 0 < IZR p) by now apply IZR_lt.
  assert (HnR : 0 <= IZR n) by now apply IZR_le.
  assert (HdR : 0 < IZR d) by now apply IZR_lt.
  pose proof scale_pos as Hs.
  assert (Hy : IZR n / IZR d / 2 ^ halvings = IZR n / IZR p).
  { subst p. rewrite mult_IZR, <- (pow_IZR 2 halvings). field.
    split; [apply pow_nonzero|]; lra. }
  assert (Hy0 : 0 <= IZR n / IZR p).
  { apply Rmult_le_pos; [assumption | left; now apply Rinv_0_lt_compat]. }
  rewrite (exp_halvings (IZR n / IZR d) halvings), Hy.
  unfold exp_neg_lo, exp_neg_hi. fold p. split.
  - apply iter_sqr_dn_sound.
    + apply Z.div_pos; [|assumption]. apply Z.mul_nonneg_nonneg; [discriminate | lia].
    + apply Rle_trans with (1 + - (IZR n / IZR p)); [|apply exp_ineq1_le].
      unfold to_R. apply div_le_of_le_mul; [assumption|].
      apply Rle_trans with (IZR (scale * (p - n)) / IZR p).
      * now apply floor_div_le.
      * rewrite mult_IZR, minus_IZR. right. field. lra.
  - apply iter_sqr_up_sound. split; [left; apply exp_pos|].
    apply Rle_trans with (/ (1 + IZR n / IZR p)); [now apply exp_neg_upper|].
    assert (Hpn : (0 < p + n)%Z) by lia.
    unfold to_R. apply le_div_of_mul_le; [assumption|].
    apply Rle_trans with (IZR (scale * p) / IZR (p + n)).
    * rewrite mult_IZR, plus_IZR. right. field. split; lra.
    * now apply ceil_div_ge.
Qed.

Lemma zsum_lower (lo : nat -> Z) (f : nat -> R) (l : list nat) :
  (forall i, In i l -> to_R (lo i) <= f i) ->
  to_R (zsum lo l) <= np.sum (map f l).
Proof.
  induction l as [|i l IH]; intros H.
  - cbn. unfold to_R, np.sum. simpl. lra.
  - cbn [zsum fold_right map]. fold (zsum lo l). rewrite to_R_plus, sum_cons.
    apply Rplus_le_compat; [apply H; now left | apply IH; intros; apply H; now right].
Qed.

Lemma zsum_upper (hi : nat -> Z) (f : nat -> R) (l : list nat) :
  (forall i, In i l -> f i <= to_R (hi i)) ->
  np.sum (map f l) <= to_R (zsum hi l).
Proof.
  induction l as [|i l IH]; intros H.
  - cbn. unfold to_R, np.sum. simpl. lra.
  - cbn [zsum fold_right map]. fold (zsum hi l). rewrite to_R_plus, sum_cons.
    apply Rplus_le_compat; [apply H; now left | apply IH; intros; apply H; now right].
Qed.

Lemma exp_grid_enclosure (d : Z) (i : nat) :
  (0 < d)%Z -> In i (seq 0 200) ->
  to_R (exp_neg_lo (sq_off i) d) <= exp (- (IZR (sq_off i) / IZR d))
    <= to_R (exp_neg_hi (sq_off i) d).
Proof.
  intros Hd Hi. apply in_seq in Hi.
  pose proof (sq_off_range i ltac:(lia)) as [H0 H1].
  apply exp_neg_enclosure; [assumption .. |].
  apply Z.le_trans with (1 * 2 ^ Z.of_nat halvings)%Z.
  - apply Z.le_trans with 10000%Z; [assumption | discriminate].
  - apply Z.mul_le_mono_nonneg_r; [discriminate | lia].
Qed.

(** ** The sums of the exponentials over the grid *)

Lemma zsum_A_lo :
  zsum (fun i => exp_neg_lo (sq_off i) 200) (seq 0 200) = 25066282722326557788%Z.
Proof. vm_compute. reflexivity. Qed.

Lemma zsum_A_hi :
  zsum (fun i => exp_neg_hi (sq_off i) 200) (seq 0 200) = 25066282790347806027%Z.
Proof. vm_compute. reflexivity. Qed.

Lemma zsum_B_lo :
  zsum (fun i => exp_neg_lo (sq_off i) 400) (seq 0 200) = 35449076983689493085%Z.
Proof. vm_compute. reflexivity. Qed.

Lemma expsum_A_bounds :
  25.066282 <= np.sum (map (fun i => exp (- (IZR (sq_off i) / IZR 200))) (seq 0 200))
    <= 25.066283.
Proof.
  split.
  - eapply Rle_trans; [|apply (zsum_lower (fun i => exp_neg_lo (sq_off i) 200))].
    + rewrite zsum_A_lo, to_R_literal. lra.
    + intros i Hi. now apply exp_grid_enclosure.
  - eapply Rle_trans; [apply (zsum_upper (fun i => exp_neg_hi (sq_off i) 200))|].
    + intros i Hi. now apply exp_grid_enclosure.
    + rewrite zsum_A_hi, to_R_literal. lra.
Qed.

Lemma expsum_B_lower :
  35.449 <= np.sum (map (fun i => exp (- (IZR (sq_off i) / IZR 400))) (seq 0 200)).
Proof.
  eapply Rle_trans; [|apply (zsum_lower (fun i => exp_neg_lo (sq_off i) 400))].
  - rewrite zsum_B_lo, to_R_literal. lra.
  - intros i Hi. now apply exp_grid_enclosure.
Qed.

Lemma sum_curveA :
  np.sum curveA
  = np.sum (map (fun i => exp (- (IZR (sq_off i) / IZR 200))) (seq 0 200))
    / norm._norm_pdf_C.
Proof.
  rewrite curveA_eq, <- sum_map_div. f_equal.
  apply map_ext. intros i. apply norm_pdf_grid.
Qed.

Lemma sum_curveB_raw :
  np.sum curveB_raw
  = np.sum (map (fun i => exp (- (IZR (sq_off i) / IZR 400))) (seq 0 200))
    / R_sqrt.sqrt norm._norm_pdf_C.
Proof.
  rewrite curveB_raw_eq, curveA_eq, map_map, <- sum_map_div. f_equal.
  apply map_ext. intros i. apply sqrt_norm_pdf_grid.
Qed.

Lemma curveB_peak_value :
  R_sqrt.sqrt (norm._norm_pdf 0) / divisor
  = / (np.sum (map (fun i => exp (- (IZR (sq_off i) / IZR 400))) (seq 0 200)) * 0.1).
Proof.
  unfold divisor. rewrite sum_curveB_raw, sqrt_norm_pdf.
  replace (- 0 ^ 2 / 4) with 0 by lra. rewrite exp_0.
  pose proof expsum_B_lower as HT. revert HT.
  generalize (np.sum (map (fun i => exp (- (IZR (sq_off i) / IZR 400))) (seq 0 200))).
  intros t Ht.
  pose proof (sqrt_lt_R0 _ norm_pdf_C_pos) as Hs. revert Hs.
  generalize (R_sqrt.sqrt norm._norm_pdf_C). intros s Hs.
  field. split; lra.
Qed.

(** ** The properties of the specification *)

(** C1: curve B is [sqrt (normal_pdf x)] at every grid point [x], every
    value divided by (the sum of those values times 0.1); the final [yy] of
    the cell is that curve, and its Riemann sum [np.sum yy * 0.1] is 1, in
    particular within 1e-9 of 1. *)
Theorem curveB_normalised :
  (forall k, exists k', cell k = Some (tt, k') /\ yy k' = Some curveB)
  /\ curveB
     = map (fun x => R_sqrt.sqrt (norm._norm_pdf x)
                     / (np.sum (map (fun x' => R_sqrt.sqrt (norm._norm_pdf x')) grid)
                        * 0.1))
           grid
  /\ np.sum curveB * 0.1 = 1
  /\ Rabs (np.sum curveB * 0.1 - 1) <= 1e-9.
Proof.
  assert (E : np.sum curveB * 0.1 = 1).
  { unfold curveB. rewrite sum_true_divide. unfold divisor.
    pose proof divisor_pos as Hd. unfold divisor in Hd.
    revert Hd. generalize (np.sum curveB_raw). intros s Hs. field. lra. }
  repeat split.
  - intros k. exists (after_cell k). split; [apply cell_run | reflexivity].
  - unfold curveB, np.true_divide, divisor, curveB_raw, np.sqrt, norm.pdf.
    now rewrite !map_map.
  - exact E.
  - rewrite E. replace (1 - 1) with 0 by lra. rewrite Rabs_R0. lra.
Qed.

(** C2 as stated fails: at index 99 the grid point is -0.1 and at index
    199 - 99 = 100 it is 0, and the two values of curve A differ by more
    than 1e-3, far above any rounding tolerance. *)
Lemma curveA_mirror_199_fails :
  exists a b,
    nth_error curveA 99 = Some a /\ nth_error curveA (199 - 99) = Some b /\
    1e-3 < Rabs (a - b).
Proof.
  exists (norm._norm_pdf (- 0.1)), (norm._norm_pdf 0). repeat split.
  - apply curveA_nth_error. rewrite grid_nth_error by lia. f_equal. grid_value.
  - apply curveA_nth_error, grid_mid.
  - rewrite Rabs_minus_sym, norm_pdf_0. unfold norm._norm_pdf.
    pose proof norm_pdf_C_bounds as HC.
    pose proof (inv_bounds _ 2.50662 2.50664 ltac:(lra) HC) as [H1 H2].
    pose proof (exp_neg_upper (1 / 200) ltac:(lra)) as He.
    replace (- (- 0.1) ^ 2 / 2) with (- (1 / 200)) by lra.
    pose proof (exp_pos (- (1 / 200))) as Hp.
    assert (He' : exp (- (1 / 200)) <= 200 / 201) by lra.
    replace (/ norm._norm_pdf_C - exp (- (1 / 200)) / norm._norm_pdf_C)
      with ((1 - exp (- (1 / 200))) * / norm._norm_pdf_C) by (field; lra).
    rewrite Rabs_pos_eq by (apply Rmult_le_pos; lra).
    assert (/ 2.50664 > 0.39) by lra.
    nra.
Qed.

(** C2, amended: the grid is half-open, so curve A is symmetric about
    index 100, the grid point 0: for every index i in 1..199,
    curveA[i] == curveA[200 - i]. *)
Theorem curveA_symmetric_about_zero (i : nat) :
  (1 <= i <= 199)%nat ->
  exists a, nth_error curveA i = Some a /\ nth_error curveA (200 - i) = Some a.
Proof.
  intros Hi. exists (norm._norm_pdf (-10.0 + INR i * 0.1)). split.
  - apply curveA_nth_error, grid_nth_error. lia.
  - rewrite <- norm_pdf_even. apply curveA_nth_error.
    rewrite grid_nth_error by lia. f_equal.
    rewrite minus_INR by lia. rewrite (INR_IZR_INZ 200). simpl Z.of_nat. lra.
Qed.

(** The mirror pair of the indices 1 and 199. *)
Lemma curveA_symmetric_about_zero_witness :
  (1 <= 1 <= 199)%nat
  /\ exists a, nth_error curveA 1 = Some a /\ nth_error curveA (200 - 1) = Some a.
Proof.
  split; [lia | apply (curveA_symmetric_about_zero 1); lia].
Defined.





(** C5: the Riemann sum of curve A over the grid, [np.sum curveA * 0.1], is
    within 1e-3 of 1. *)
Theorem curveA_riemann_sum : Rabs (np.sum curveA * 0.1 - 1) < 1e-3.
Proof.
  rewrite sum_curveA.
  pose proof expsum_A_bounds as HT. pose proof norm_pdf_C_bounds as HC.
  revert HT.
  generalize (np.sum (map (fun i => exp (- (IZR (sq_off i) / IZR 200))) (seq 0 200))).
  revert HC. generalize norm._norm_pdf_C. intros c Hc t Ht.
  replace (t / c * 0.1 - 1) with ((t * 0.1 - c) / c) by (field; lra).
  apply Rabs_def1.
  - apply Rmult_lt_reg_r with c; [lra|].
    replace ((t * 0.1 - c) / c * c) with (t * 0.1 - c) by (field; lra). lra.
  - apply Rmult_lt_reg_r with c; [lra|].
    replace ((t * 0.1 - c) / c * c) with (t * 0.1 - c) by (field; lra). lra.
Qed.


(** C7: every value of curve A and every value of curve B is >= 0. *)
Theorem curves_nonnegative :
  Forall (fun v => 0 <= v) curveA /\ Forall (fun v => 0 <= v) curveB.
Proof.
  split.
  - unfold curveA, norm.pdf. apply Forall_map, Forall_forall.
    intros x _. left. apply norm_pdf_pos.
  - rewrite curveB_of_curveA. apply Forall_map, Forall_forall.
    intros a _. apply Rmult_le_pos; [apply sqrt_pos|].
    left. apply Rinv_0_lt_compat, divisor_pos.
Qed.

(** C8: the values [sqrt (normal_pdf x)] are all strictly positive, so the
    divisor [np.sum yy * 0.1] of the normalisation is strictly positive and
    the division never divides by zero; the cell has no failing run. *)
Theorem divisor_never_zero :
  Forall (fun v => 0 < v) curveB_raw
  /\ 0 < np.sum curveB_raw * 0.1
  /\ (forall k, exists k',
        cell k = Some (tt, k')
        /\ yy k' = Some (np.true_divide curveB_raw (np.sum curveB_raw * 0.1))).
Proof.
  split; [apply curveB_raw_pos|]. split; [apply divisor_pos|].
  intros k. exists (after_cell k). split; [apply cell_run | reflexivity].
Qed.

(** C9: the cell is deterministic and reads nothing of the kernel it starts
    in: two runs, from any two kernels, bind [xx] and [yy] to the same
    arrays and draw the same lines. *)
Theorem cell_deterministic (k1 k2 : kernel) :
  exists k1' k2',
    cell k1 = Some (tt, k1') /\ cell k2 = Some (tt, k2')
    /\ xx k1' = xx k2' /\ yy k1' = yy k2'
    /\ skipn (length (lines k1)) (lines k1') = skipn (length (lines k2)) (lines k2').
Proof.
  exists (after_cell k1), (after_cell k2).
  split; [apply cell_run|]. split; [apply cell_run|].
  split; [reflexivity|]. split; [reflexivity|].
  unfold after_cell. cbn [lines].
  rewrite !skipn_app, !skipn_all, !Nat.sub_diag. reflexivity.
Qed.

(** C10: the largest value of the normalised curve B is strictly less than
    the largest value of curve A. *)
Theorem curveB_peak_below_curveA_peak :
  exists a b, is_max curveA a /\ is_max curveB b /\ b < a.
Proof.
  exists (norm._norm_pdf 0), (R_sqrt.sqrt (norm._norm_pdf 0) / divisor).
  split; [apply curveA_max|]. split; [apply curveB_max|].
  rewrite curveB_peak_value.
  pose proof expsum_B_lower as HT. pose proof norm_pdf_0_bounds as HA.
  apply Rlt_trans with 0.39; [|lra].
  apply Rle_lt_trans with (/ 3.5449); [|lra].
  apply Rinv_le_contravar; lra.
Qed.

(** ** The cell, statement by statement *)

Lemma cell_statements : cell = stmt_grid ;;; cell_tail.
Proof. reflexivity. Qed.

Lemma normalise_length (y : ndarray) : length (normalise y) = length y.
Proof. unfold normalise, np.true_divide. apply length_map. Qed.

Lemma tempered_length (a : ndarray) : length (tempered a) = length a.
Proof.
  unfold tempered. rewrite normalise_length.
  unfold np.sqrt, norm.pdf. now rewrite !length_map.
Qed.

Lemma curveB_tempered : curveB = tempered grid.
Proof. reflexivity. Qed.













(** ** The shape of the two curves *)

Lemma curve_index_bound (i : nat) (a : R) :
  nth_error curveA i = Some a -> (i < 200)%nat.
Proof.
  intros H. assert (Hs : nth_error curveA i <> None) by congruence.
  apply nth_error_Some in Hs.
  unfold curveA, norm.pdf in Hs. now rewrite length_map, grid_length in Hs.
Qed.

Lemma curveB_index_bound (i : nat) (b : R) :
  nth_error curveB i = Some b -> (i < 200)%nat.
Proof.
  intros H. assert (Hs : nth_error curveB i <> None) by congruence.
  apply nth_error_Some in Hs.
  rewrite curveB_tempered, tempered_length, grid_length in Hs. exact Hs.
Qed.

Lemma curveA_at (i : nat) :
  (i < 200)%nat ->
  nth_error curveA i
  = Some (exp (- (IZR (sq_off i) / IZR 200)) / norm._norm_pdf_C).
Proof.
  intros Hi. rewrite (curveA_nth_error i _ (grid_nth_error i Hi)).
  now rewrite norm_pdf_grid.
Qed.

Lemma curveB_at (i : nat) :
  (i < 200)%nat ->
  nth_error curveB i
  = Some (exp (- (IZR (sq_off i) / IZR 400))
          / (np.sum (map (fun j => exp (- (IZR (sq_off j) / IZR 400))) (seq 0 200))
             * 0.1)).
Proof.
  intros Hi. rewrite curveB_of_curveA.
  rewrite (map_nth_error _ _ _ (curveA_nth_error i _ (grid_nth_error i Hi))).
  f_equal. rewrite sqrt_norm_pdf_grid. unfold divisor. rewrite sum_curveB_raw.
  pose proof expsum_B_lower as HT. revert HT.
  generalize (np.sum (map (fun j => exp (- (IZR (sq_off j) / IZR 400))) (seq 0 200))).
  intros t Ht.
  pose proof (sqrt_lt_R0 _ norm_pdf_C_pos) as Hs.
  field. split; lra.
Qed.

Lemma sq_off_off (i : nat) : sq_off i = (off i * off i)%Z.
Proof. unfold sq_off, off. lia. Qed.

Lemma sq_off_lt (i j : nat) : (off j < off i)%Z -> (sq_off j < sq_off i)%Z.
Proof.
  rewrite !sq_off_off. unfold off. intros H.
  pose proof (Z.abs_nonneg (Z.of_nat j - 100)). nia.
Qed.

Lemma exp_neg_ratio_lt (s t d : Z) :
  (0 < d)%Z -> (s < t)%Z ->
  exp (- (IZR t / IZR d)) < exp (- (IZR s / IZR d)).
Proof.
  intros Hd Hst. apply exp_increasing.
  apply IZR_lt in Hd, Hst.
  apply Ropp_lt_contravar. unfold Rdiv.
  apply Rmult_lt_compat_r; [now apply Rinv_0_lt_compat | exact Hst].
Qed.

Lemma exp_neg_ratio_le (s t d : Z) :
  (0 < d)%Z -> (s <= t)%Z ->
  exp (- (IZR t / IZR d)) <= exp (- (IZR s / IZR d)).
Proof.
  intros Hd Hst. destruct (Z.eq_dec s t) as [->|Hne]; [lra|].
  left. apply exp_neg_ratio_lt; lia.
Qed.

(** X6: curve A is strictly larger at the index nearer to index 100, the
    grid point 0: it increases strictly up to index 100 and decreases
    strictly after it. *)
Theorem curveA_decreases_away_from_zero (i j : nat) (a b : R) :
  nth_error curveA i = Some a -> nth_error curveA j = Some b ->
  (off j < off i)%Z -> a < b.
Proof.
  intros Ha Hb Hoff.
  pose proof (curveA_at i (curve_index_bound i a Ha)) as Ea.
  pose proof (curveA_at j (curve_index_bound j b Hb)) as Eb.
  replace a with (exp (- (IZR (sq_off i) / IZR 200)) / norm._norm_pdf_C) by congruence.
  replace b with (exp (- (IZR (sq_off j) / IZR 200)) / norm._norm_pdf_C) by congruence.
  apply Rmult_lt_compat_r; [apply Rinv_0_lt_compat, norm_pdf_C_pos|].
  apply exp_neg_ratio_lt; [reflexivity | now apply sq_off_lt].
Qed.

(** X7: curve B is strictly larger at the index nearer to index 100. *)
Theorem curveB_decreases_away_from_zero (i j : nat) (a b : R) :
  nth_error curveB i = Some a -> nth_error curveB j = Some b ->
  (off j < off i)%Z -> a < b.
Proof.
  intros Ha Hb Hoff.
  pose proof (curveB_at i (curveB_index_bound i a Ha)) as Ea.
  pose proof (curveB_at j (curveB_index_bound j b Hb)) as Eb.
  rewrite Ea in Ha. rewrite Eb in Hb. clear Ea Eb.
  pose proof expsum_B_lower as HT. revert HT Ha Hb.
  generalize (np.sum (map (fun j => exp (- (IZR (sq_off j) / IZR 400))) (seq 0 200))).
  intros t Ht Ha Hb.
  replace a with (exp (- (IZR (sq_off i) / IZR 400)) / (t * 0.1)) by congruence.
  replace b with (exp (- (IZR (sq_off j) / IZR 400)) / (t * 0.1)) by congruence.
  apply Rmult_lt_compat_r; [apply Rinv_0_lt_compat; lra|].
  apply exp_neg_ratio_lt; [reflexivity | now apply sq_off_lt].
Qed.



(** The indices 0 and 100. *)
Lemma curveA_decreases_away_from_zero_witness :
  exists a b,
    nth_error curveA 0 = Some a /\ nth_error curveA 100 = Some b
    /\ (off 100 < off 0)%Z /\ a < b.
Proof.
  pose proof (curveA_at 0 ltac:(lia)) as Ha.
  pose proof (curveA_at 100 ltac:(lia)) as Hb.
  assert (Hoff : (off 100 < off 0)%Z) by reflexivity.
  eexists _, _. split; [exact Ha|]. split; [exact Hb|]. split; [exact Hoff|].
  exact (curveA_decreases_away_from_zero 0 100 _ _ Ha Hb Hoff).
Defined.

(** The indices 0 and 100. *)
Lemma curveB_decreases_away_from_zero_witness :
  exists a b,
    nth_error curveB 0 = Some a /\ nth_error curveB 100 = Some b
    /\ (off 100 < off 0)%Z /\ a < b.
Proof.
  pose proof (curveB_at 0 ltac:(lia)) as Ha.
  pose proof (curveB_at 100 ltac:(lia)) as Hb.
  assert (Hoff : (off 100 < off 0)%Z) by reflexivity.
  eexists _, _. split; [exact Ha|]. split; [exact Hb|]. split; [exact Hoff|].
  exact (curveB_decreases_away_from_zero 0 100 _ _ Ha Hb Hoff).
Defined.


(** ** Where the two curves cross *)

Lemma zsum_B_hi :
  zsum (fun i => exp_neg_hi (sq_off i) 400) (seq 0 200) = 35449077083221010958%Z.
Proof. vm_compute. reflexivity. Qed.

Lemma expsum_B_bounds :
  35.449076
  <= np.sum (map (fun i => exp (- (IZR (sq_off i) / IZR 400))) (seq 0 200))
  <= 35.449078.
Proof.
  split.
  - eapply Rle_trans; [|apply (zsum_lower (fun i => exp_neg_lo (sq_off i) 400))].
    + rewrite zsum_B_lo, to_R_literal. lra.
    + intros i Hi. now apply exp_grid_enclosure.
  - eapply Rle_trans; [apply (zsum_upper (fun i => exp_neg_hi (sq_off i) 400))|].
    + intros i Hi. now apply exp_grid_enclosure.
    + rewrite zsum_B_hi, to_R_literal. lra.
Qed.

Lemma exp_neg_121_400 : 0.7389 <= exp (- (IZR 121 / IZR 400)).
Proof.
  pose proof (exp_neg_enclosure 121 400 ltac:(lia) ltac:(lia) ltac:(vm_compute; discriminate))
    as [H _].
  assert (E : exp_neg_lo 121 400 = 738968487946011127%Z) by (vm_compute; reflexivity).
  rewrite E, to_R_literal in H. lra.
Qed.

Lemma exp_neg_144_400 : exp (- (IZR 144 / IZR 400)) <= 0.6977.
Proof.
  pose proof (exp_neg_enclosure 144 400 ltac:(lia) ltac:(lia) ltac:(vm_compute; discriminate))
    as [_ H].
  assert (E : exp_neg_hi 144 400 = 697676327187017118%Z) by (vm_compute; reflexivity).
  rewrite E, to_R_literal in H. lra.
Qed.

Lemma exp_neg_200_400 (s : Z) :
  exp (- (IZR s / IZR 200)) = exp (- (IZR s / IZR 400)) ^ 2.
Proof.
  cbn [pow]. rewrite Rmult_1_r, <- exp_plus. f_equal. lra.
Qed.

Lemma div_lt_cross (x y u v : R) :
  0 < u -> 0 < v -> x * v < y * u -> x / u < y / v.
Proof.
  intros Hu Hv H.
  replace (x / u) with (x * v / (u * v)) by (field; lra).
  replace (y / v) with (y * u / (u * v)) by (field; lra).
  apply Rmult_lt_compat_r; [apply Rinv_0_lt_compat; nra | exact H].
Qed.

Lemma sq_off_le_121 (i : nat) : (off i <= 11)%Z -> (sq_off i <= 121)%Z.
Proof.
  rewrite sq_off_off. unfold off.
  pose proof (Z.abs_nonneg (Z.of_nat i - 100)). nia.
Qed.

Lemma sq_off_ge_144 (i : nat) : (12 <= off i)%Z -> (144 <= sq_off i)%Z.
Proof. rewrite sq_off_off. nia. Qed.

(** X9: the two curves cross between the grid points 1.1 and 1.2 on either
    side of 0: at most 11 indices away from index 100 curve B is strictly
    below curve A, and 12 or more indices away it is strictly above. *)
Theorem curves_cross_once_each_side (i : nat) (a b : R) :
  nth_error curveA i = Some a -> nth_error curveB i = Some b ->
  ((off i <= 11)%Z -> b < a) /\ ((12 <= off i)%Z -> a < b).
Proof.
  intros Ha Hb.
  pose proof (curveA_at i (curve_index_bound i a Ha)) as Ea.
  pose proof (curveB_at i (curveB_index_bound i b Hb)) as Eb.
  rewrite Ea in Ha. rewrite Eb in Hb. clear Ea Eb.
  rewrite exp_neg_200_400 in Ha.
  pose proof expsum_B_bounds as HT. pose proof norm_pdf_C_bounds as HC.
  pose proof (exp_pos (- (IZR (sq_off i) / IZR 400))) as He.
  revert HT Ha Hb.
  generalize (np.sum (map (fun j => exp (- (IZR (sq_off j) / IZR 400))) (seq 0 200))).
  revert HC. generalize norm._norm_pdf_C. intros c Hc t Ht Ha Hb.
  replace a with (exp (- (IZR (sq_off i) / IZR 400)) ^ 2 / c) by congruence.
  replace b with (exp (- (IZR (sq_off i) / IZR 400)) / (t * 0.1)) by congruence.
  split; intros Hoff.
  - pose proof (exp_neg_ratio_le _ _ 400 ltac:(lia) (sq_off_le_121 i Hoff)) as H1.
    pose proof exp_neg_121_400 as H2.
    revert He H1. generalize (exp (- (IZR (sq_off i) / IZR 400))). intros e He H1.
    apply div_lt_cross; [lra | lra | nra].
  - pose proof (exp_neg_ratio_le _ _ 400 ltac:(lia) (sq_off_ge_144 i Hoff)) as H1.
    pose proof exp_neg_144_400 as H2.
    revert He H1. generalize (exp (- (IZR (sq_off i) / IZR 400))). intros e He H1.
    apply div_lt_cross; [lra | lra | nra].
Qed.

(** Index 88, the grid point -1.2, and index 100, the grid point 0. *)
Lemma curves_cross_once_each_side_witness :
  exists a b a' b',
    nth_error curveA 88 = Some a /\ nth_error curveB 88 = Some b
    /\ (12 <= off 88)%Z /\ a < b
    /\ nth_error curveA 100 = Some a' /\ nth_error curveB 100 = Some b'
    /\ (off 100 <= 11)%Z /\ b' < a'.
Proof.
  pose proof (curveA_at 88 ltac:(lia)) as Ha.
  pose proof (curveB_at 88 ltac:(lia)) as Hb.
  pose proof (curveA_at 100 ltac:(lia)) as Ha'.
  pose proof (curveB_at 100 ltac:(lia)) as Hb'.
  assert (Hoff : (12 <= off 88)%Z) by discriminate.
  assert (Hoff' : (off 100 <= 11)%Z) by discriminate.
  eexists _, _, _, _.
  split; [exact Ha|]. split; [exact Hb|]. split; [exact Hoff|].
  split; [exact (proj2 (curves_cross_once_each_side 88 _ _ Ha Hb) Hoff)|].
  split; [exact Ha'|]. split; [exact Hb'|]. split; [exact Hoff'|].
  exact (proj1 (curves_cross_once_each_side 100 _ _ Ha' Hb') Hoff').
Defined.

(** X10: the largest value of curve B is its value at index 100, and it is
    within 1e-4 of 0.2821. *)
Theorem curveB_peak_value_approx :
  exists b,
    nth_error curveB 100 = Some b /\ is_max curveB b
    /\ Rabs (b - 0.2821) < 1e-4.
Proof.
  exists (R_sqrt.sqrt (norm._norm_pdf 0) / divisor).
  split; [|split; [apply curveB_max|]].
  - rewrite curveB_of_curveA.
    apply (map_nth_error (fun a => R_sqrt.sqrt a / divisor)).
    apply curveA_nth_error, grid_mid.
  - rewrite curveB_peak_value.
    pose proof expsum_B_bounds as HT. revert HT.
    generalize (np.sum (map (fun i => exp (- (IZR (sq_off i) / IZR 400))) (seq 0 200))).
    intros t Ht.
    pose proof (inv_bounds (t * 0.1) 3.5449 3.5450 ltac:(lra) ltac:(lra)) as [H1 H2].
    apply Rabs_def1; lra.
Qed.
